(** * Casual-games site: catalog lookups and the recently-played history

    A shallow embedding of the logic of the two route modules
    [app/routes/games.$gameId.tsx] (detail page) and the home route,
    together with the client-side history helpers they import from
    [~/utils/localStorage].

    - JavaScript arrays are lists; [Array.prototype.find], [filter], [map]
      and [slice] are written out with the behaviour the language gives them.
    - [Game | undefined] is [option Game].
    - [localStorage] is a finite map from keys to strings that may be
      missing altogether (server rendering, blocked storage); code running
      against it lives in a small state-and-exception monad [Eff]. *)

From Stdlib Require Import String Ascii List ZArith Lia.
From Stdlib Require QArith.Qcanon.
From stdpp Require Import base option gmap strings list fin_maps numbers.
Import ListNotations.

Local Open Scope string_scope.
Local Open Scope list_scope.

(** ** The catalog ([~/data/games]) *)

(** Modelled from the spec: the [Game] type of the missing module
    [~/data/games], with the documented fields of a game record (section 3)
    and, as the detail page reads them, the optional SEO overrides and the
    embed markup. The catalog itself, [games], is an argument throughout. *)
Record Game : Type := mkGame {
  id : string;
  slug : string;
  title : string;
  category : string;
  tags : list string;
  description : string;
  thumbnail : string;
  rating : Qcanon.Qc;
  plays : N;
  featured : bool;
  releaseDate : string;
  metaTitle : option string;
  metaDescription : option string;
  iframeHtml : string;
  alternativeText : string
}.

(** ** JavaScript array primitives *)

Module JsArray.

(** [arr.find(p)]: the first element satisfying [p], else [undefined]. *)
Fixpoint find {A : Type} (p : A -> bool) (arr : list A) : option A :=
  match arr with
  | [] => None
  | x :: rest => if p x then Some x else find p rest
  end.

(** [arr.filter(p)]: the elements satisfying [p], in array order. *)
Fixpoint filter {A : Type} (p : A -> bool) (arr : list A) : list A :=
  match arr with
  | [] => []
  | x :: rest => if p x then x :: filter p rest else filter p rest
  end.

(** [arr.filter(x => x !== undefined)] on an array of [A | undefined],
    with the type guard narrowing the element type to [A]. *)
Fixpoint filter_defined {A : Type} (arr : list (option A)) : list A :=
  match arr with
  | [] => []
  | Some x :: rest => x :: filter_defined rest
  | None :: rest => filter_defined rest
  end.

(** Relative-index clamping shared by [slice]'s two arguments. *)
Definition clamp_index (len i : Z) : Z :=
  if (i <? 0)%Z then Z.max (len + i) 0 else Z.min i len.

(** [arr.slice(start, end)] for integer arguments. *)
Definition slice {A : Type} (start end_ : Z) (arr : list A) : list A :=
  let len := Z.of_nat (length arr) in
  let k := clamp_index len start in
  let final := clamp_index len end_ in
  firstn (Z.to_nat (Z.max (final - k) 0)) (skipn (Z.to_nat k) arr).

End JsArray.

(** ** Outcomes of code that may throw *)

Inductive Outcome (E A : Type) : Type :=
| Returned (a : A)
| Thrown (e : E).
Arguments Returned {E A} a.
Arguments Thrown {E A} e.

(** ** The browser environment: [localStorage] and code that may throw *)

Module Browser.

(** The client-side environment. On the server, or with storage blocked,
    there is no usable [localStorage]; otherwise it maps keys to strings. *)
Inductive Window : Type :=
| NoStorage
| HasStorage (localStorage : gmap string string).

(** What the storage helpers can see thrown. *)
Inductive Exn : Type :=
| StorageUnavailable
| SyntaxError.

(** Computations over the environment that return or throw. *)
Definition Eff (A : Type) : Type := Window -> Outcome Exn A * Window.

#[global] Instance Eff_ret : MRet Eff :=
  fun A (a : A) w => (Returned a, w).

#[global] Instance Eff_bind : MBind Eff :=
  fun A B (k : A -> Eff B) (m : Eff A) w =>
    match m w with
    | (Returned a, w') => k a w'
    | (Thrown e, w') => (Thrown e, w')
    end.

(** [throw e]. *)
Definition throw {A : Type} (e : Exn) : Eff A :=
  fun w => (Thrown e, w).

(** [try { body } catch (e) { handler(e) }]. *)
Definition try_catch {A : Type} (body : Eff A) (handler : Exn -> Eff A) : Eff A :=
  fun w =>
    match body w with
    | (Returned a, w') => (Returned a, w')
    | (Thrown e, w') => handler e w'
    end.

(** [localStorage.getItem(key)]: the stored string or [null]. *)
Definition getItem (key : string) : Eff (option string) :=
  fun w =>
    match w with
    | NoStorage => (Thrown StorageUnavailable, w)
    | HasStorage ls => (Returned (ls !! key), w)
    end.

(** [localStorage.setItem(key, value)]: replaces the value under [key]. *)
Definition setItem (key value : string) : Eff unit :=
  fun w =>
    match w with
    | NoStorage => (Thrown StorageUnavailable, w)
    | HasStorage ls => (Returned tt, HasStorage (<[key := value]> ls))
    end.

(** The value a computation returns, when it returns. *)
Definition result {A : Type} (m : Eff A) (w : Window) : Outcome Exn A := fst (m w).

(** The environment a computation leaves behind. *)
Definition after {A : Type} (m : Eff A) (w : Window) : Window := snd (m w).

End Browser.

(** ** The detail route: [games.$gameId.tsx] *)

Module GameRoute.

(** Route parameters: [params.gameId] is [string | undefined]. *)
Record Params : Type := { gameId : option string }.

(** [new Response(body, { status })]. *)
Record Response : Type := { body : string; status : nat }.

(** [g.id === params.gameId] (strict equality of a string with a
    possibly-undefined string). *)
Definition id_matches (p : option string) (g : Game) : bool :=
  match p with
  | Some s => String.eqb (id g) s
  | None => false
  end.

(** [loader]: look the game up, throw a 404 response when it is missing. *)
Definition loader (games : list Game) (params : Params) : Outcome Response Game :=
  match JsArray.find (id_matches (gameId params)) games with
  | None => Thrown {| body := "Game not found"; status := 404 |}
  | Some game => Returned game
  end.

End GameRoute.

(** ** The home route: loader and effect *)

Module HomeRoute.

(** [games.filter((game) => game.featured).slice(0, limit)], the loader's
    expression with its literal as an argument. *)
Definition filterFeatured (games : list Game) (limit : nat) : list Game :=
  JsArray.slice 0 (Z.of_nat limit) (JsArray.filter featured games).

(** [loader]: [featuredGames] is the first three featured games. *)
Definition loader (games : list Game) : list Game :=
  JsArray.slice 0 3 (JsArray.filter featured games).

(** The documented reading of [filterFeatured]: walk the catalog in its
    own order, keep featured records, stop once [limit] were kept. *)
Fixpoint filterFeatured_spec (games : list Game) (limit : nat) : list Game :=
  match limit, games with
  | O, _ => []
  | _, [] => []
  | S n, g :: rest =>
      if featured g then g :: filterFeatured_spec rest n
      else filterFeatured_spec rest (S n)
  end.

(** [games.find(game => game.id === id)]: the catalog's [findById]. *)
Definition findById (games : list Game) (i : string) : option Game :=
  JsArray.find (fun game => String.eqb (id game) i) games.

(** The effect's resolution of the stored identifiers:
    [recentGameIds.map(id => games.find(...)).filter(game => game !== undefined)]. *)
Definition recentGames (games : list Game) (recentGameIds : list string) : list Game :=
  JsArray.filter_defined (map (findById games) recentGameIds).

(** [Index]'s effect, with the imported helper as an argument: read the
    stored identifiers, resolve them, and hand the games to
    [setRecentlyPlayed] (the value returned here). *)
Definition Index_effect (getRecentlyPlayed : Browser.Eff (list string))
    (games : list Game) : Browser.Eff (list Game) :=
  recentGameIds ← getRecentlyPlayed;
  mret (recentGames games recentGameIds).

(** The documented reading of the resolution: for each identifier in
    stored order, keep the game it resolves to, drop it when absent. *)
Fixpoint resolve_spec (games : list Game) (ids : list string) : list Game :=
  match ids with
  | [] => []
  | i :: rest =>
      match findById games i with
      | Some g => g :: resolve_spec games rest
      | None => resolve_spec games rest
      end
  end.

End HomeRoute.

(** ** A reference codec for the persisted value

    The persisted value is a JSON array of strings. The tracker below is
    stated over any codec that reads back what it wrote; this module gives
    one such codec (compact JSON text, with the quote and the backslash
    escaped inside strings) so that the results can be run on actual
    storage contents. *)

Module Json.

Definition dquote : ascii := Eval cbv in ascii_of_nat 34.
Definition backslash : ascii := Eval cbv in ascii_of_nat 92.

(** Escape the two characters that cannot stand for themselves. *)
Fixpoint escape (s : string) : string :=
  match s with
  | EmptyString => EmptyString
  | String c rest =>
      if Ascii.eqb c dquote || Ascii.eqb c backslash
      then String backslash (String c (escape rest))
      else String c (escape rest)
  end.

(** A string literal followed by [k]. *)
Definition quoted (s k : string) : string :=
  String dquote (escape s +:+ String dquote k).

(** What follows an element already written: more elements, or the end. *)
Fixpoint enc_tail (l : list string) : string :=
  match l with
  | [] => "]"
  | x :: rest => String "," (quoted x (enc_tail rest))
  end.

(** [JSON.stringify] on an array of strings. *)
Definition encode (l : list string) : string :=
  match l with
  | [] => "[]"
  | x :: rest => String "[" (quoted x (enc_tail rest))
  end.

(** Reader states; [done] holds the finished elements, last one first. *)
Inductive pstate : Type :=
| AtStart
| AfterOpen
| WantElem (done : list string)
| InString (done : list string) (cur : string)
| InEscape (done : list string) (cur : string)
| AfterElem (done : list string)
| AtEnd (done : list string).

Definition step (st : pstate) (c : ascii) : option pstate :=
  match st with
  | AtStart => if Ascii.eqb c "[" then Some AfterOpen else None
  | AfterOpen =>
      if Ascii.eqb c "]" then Some (AtEnd [])
      else if Ascii.eqb c dquote then Some (InString [] EmptyString)
      else None
  | WantElem done =>
      if Ascii.eqb c dquote then Some (InString done EmptyString) else None
  | InString done cur =>
      if Ascii.eqb c dquote then Some (AfterElem (cur :: done))
      else if Ascii.eqb c backslash then Some (InEscape done cur)
      else Some (InString done (cur +:+ String c EmptyString))
  | InEscape done cur =>
      if Ascii.eqb c dquote || Ascii.eqb c backslash
      then Some (InString done (cur +:+ String c EmptyString))
      else None
  | AfterElem done =>
      if Ascii.eqb c "," then Some (WantElem done)
      else if Ascii.eqb c "]" then Some (AtEnd done)
      else None
  | AtEnd _ => None
  end.

Fixpoint run (st : pstate) (s : string) : option pstate :=
  match s with
  | EmptyString => Some st
  | String c rest =>
      match step st c with
      | Some st' => run st' rest
      | None => None
      end
  end.

(** [JSON.parse] followed by the check that the value is an array of
    strings: [None] for anything else. *)
Definition decode (s : string) : option (list string) :=
  match run AtStart s with
  | Some (AtEnd done) => Some (rev done)
  | _ => None
  end.

End Json.

(** ** The recently-played helpers ([~/utils/localStorage]) *)

Module Tracker.
Import Browser.

Section Helpers.

(** The storage key, the capacity of the history and the codec of the
    persisted value ([JSON.stringify], and [JSON.parse] narrowed to arrays
    of strings: [None] for any other text) belong to the helper module and
    are kept abstract. *)
Variable RECENT_KEY : string.
Variable capacity : nat.
Variable decode : string -> option (list string).
Variable encode : list string -> string.

(** Modelled from the spec: the read of the persisted identifier sequence
    used by [list] (the helper [getRecentlyPlayed] of the missing module
    [~/utils/localStorage]). An absent key is the empty sequence; a value
    that does not parse as a sequence of strings, or storage that cannot be
    reached, gives the empty sequence as well and nothing is thrown. *)
Definition getRecentlyPlayed : Eff (list string) :=
  try_catch
    (raw ← getItem RECENT_KEY;
     match raw with
     | None => mret []
     | Some text =>
         match decode text with
         | Some ids => mret ids
         | None => throw SyntaxError
         end
     end)
    (fun _ => mret []).

(** Modelled from the spec: [record] (the helper [addToRecentlyPlayed] of
    the missing module [~/utils/localStorage]). Read the current sequence,
    remove [gameId] wherever it occurs, put it at the front, truncate to the
    capacity and write the result back, replacing the stored value; with
    storage out of reach the call does nothing. *)
Definition addToRecentlyPlayed (gameId : string) : Eff unit :=
  try_catch
    (recent ← getRecentlyPlayed;
     let updated :=
       firstn capacity
         (gameId :: JsArray.filter (fun i => negb (String.eqb i gameId)) recent) in
     setItem RECENT_KEY (encode updated))
    (fun _ => mret tt).

(** A run of [record] calls, first identifier first. *)
Fixpoint record_all (gameIds : list string) : Eff unit :=
  match gameIds with
  | [] => mret tt
  | g :: rest => addToRecentlyPlayed g ;; record_all rest
  end.

(** The sequence the storage holds, as the helpers read it. *)
Definition stored (w : Window) : list string :=
  match w with
  | NoStorage => []
  | HasStorage ls =>
      match ls !! RECENT_KEY with
      | None => []
      | Some text => default [] (decode text)
      end
  end.

(** One [record] step on the sequence itself. *)
Definition pushed (gameId : string) (recent : list string) : list string :=
  firstn capacity
    (gameId :: JsArray.filter (fun i => negb (String.eqb i gameId)) recent).

End Helpers.
End Tracker.

(** ** More JavaScript primitives, as the detail page uses them *)

Module Js.

(** [a || b] for an optional string [a] and a string [b]: [a] when it is
    truthy, that is defined and not the empty string, else [b]. *)
Definition or_else (a : option string) (b : string) : string :=
  match a with
  | None => b
  | Some EmptyString => b
  | Some s => s
  end.

(** [arr.join(sep)] on an array of strings. *)
Fixpoint join (sep : string) (arr : list string) : string :=
  match arr with
  | [] => EmptyString
  | x :: rest =>
      match rest with
      | [] => x
      | _ :: _ => x +:+ sep +:+ join sep rest
      end
  end.

(** [arr.includes(x)] on an array of strings. *)
Fixpoint includes (arr : list string) (x : string) : bool :=
  match arr with
  | [] => false
  | y :: rest => if String.eqb y x then true else includes rest x
  end.

End Js.

(** ** The detail route: [meta] *)

Module GameMeta.

(** The objects of the array [meta] returns: [{ title }],
    [{ name, content }], [{ property, content }] and [{ rel, href }]. *)
Inductive MetaDescriptor : Type :=
| TitleTag (text : string)
| NameTag (name content : string)
| PropertyTag (property content : string)
| LinkTag (rel href : string).

(** [location]: only [pathname] is read. *)
Record Location : Type := { pathname : string }.

(** [meta({ data, location })]; [data] is the loader's [{ game }] or
    [undefined], so [data?.game] is the game or [undefined]. *)
Definition meta (data : option Game) (location : Location) : list MetaDescriptor :=
  match data with
  | None =>
      [ TitleTag "Game Not Found - Casual Games";
        NameTag "description" "The requested game could not be found." ]
  | Some game =>
      let canonicalUrl := "https://casualgames.studio" +:+ pathname location in
      [ TitleTag (Js.or_else (metaTitle game)
                    (title game +:+ " - Play Online | Casual Games"));
        NameTag "description" (Js.or_else (metaDescription game) (description game));
        NameTag "keywords" (Js.join ", " (tags game));
        PropertyTag "og:title" (Js.or_else (metaTitle game) (title game));
        PropertyTag "og:description"
          (Js.or_else (metaDescription game) (description game));
        PropertyTag "og:image" (thumbnail game);
        PropertyTag "og:type" "game";
        NameTag "twitter:card" "summary_large_image";
        NameTag "twitter:title" (Js.or_else (metaTitle game) (title game));
        NameTag "twitter:description"
          (Js.or_else (metaDescription game) (description game));
        NameTag "twitter:image" (thumbnail game);
        LinkTag "canonical" canonicalUrl;
        NameTag "language" "en";
        PropertyTag "article:published_time" (releaseDate game) ]
  end.

(** The texts of the [{ title }] entries of a meta array. *)
Fixpoint titles (metas : list MetaDescriptor) : list string :=
  match metas with
  | [] => []
  | TitleTag t :: rest => t :: titles rest
  | _ :: rest => titles rest
  end.

(** The contents of the [{ name, content }] entries named [n]. *)
Fixpoint named (n : string) (metas : list MetaDescriptor) : list string :=
  match metas with
  | [] => []
  | NameTag m c :: rest => if String.eqb m n then c :: named n rest else named n rest
  | _ :: rest => named n rest
  end.

(** The contents of the [{ property, content }] entries for [p]. *)
Fixpoint properties (p : string) (metas : list MetaDescriptor) : list string :=
  match metas with
  | [] => []
  | PropertyTag q c :: rest =>
      if String.eqb q p then c :: properties p rest else properties p rest
  | _ :: rest => properties p rest
  end.

(** The hrefs of the [{ rel, href }] entries with relation [r]. *)
Fixpoint links (r : string) (metas : list MetaDescriptor) : list string :=
  match metas with
  | [] => []
  | LinkTag q h :: rest => if String.eqb q r then h :: links r rest else links r rest
  | _ :: rest => links r rest
  end.

End GameMeta.

(** ** The detail route: the data [GamePage] embeds in the page *)

Module GamePage.

(** The [aggregateRating] object. *)
Record AggregateRating : Type := {
  ratingValue : Qcanon.Qc;
  ratingCount : N;
  bestRating : string;
  worstRating : string
}.

(** The [interactionStatistic] object. *)
Record InteractionCounter : Type := {
  interactionType : string;
  userInteractionCount : N
}.

(** The [structuredData] object (schema.org [VideoGame]). *)
Record VideoGame : Type := {
  vg_name : string;
  vg_description : string;
  vg_image : string;
  vg_genre : string;
  vg_numberOfPlayers : string;
  vg_gameRating : string;
  vg_datePublished : string;
  vg_aggregateRating : AggregateRating;
  vg_interactionStatistic : InteractionCounter
}.

(** [structuredData]. The conversion of the number [game.rating] to text in
    the template string is an argument; [Math.floor(game.plays / 10)] is
    the integer quotient of the play counter. *)
Definition structuredData (number_to_string : Qcanon.Qc -> string) (game : Game)
    : VideoGame :=
  {| vg_name := title game;
     vg_description := description game;
     vg_image := thumbnail game;
     vg_genre := category game;
     vg_numberOfPlayers :=
       if Js.includes (tags game) "Multiplayer" then "MultiPlayer" else "SinglePlayer";
     vg_gameRating := number_to_string (rating game) +:+ "/5";
     vg_datePublished := releaseDate game;
     vg_aggregateRating :=
       {| ratingValue := rating game;
          ratingCount := N.div (plays game) 10;
          bestRating := "5";
          worstRating := "1" |};
     vg_interactionStatistic :=
       {| interactionType := "https://schema.org/PlayGameAction";
          userInteractionCount := plays game |} |}.

(** An entry of [breadcrumbData.itemListElement]. *)
Record ListItem : Type := {
  position : nat;
  item_name : string;
  item : string
}.

(** [breadcrumbData.itemListElement]; [String.prototype.toLowerCase] is an
    argument. *)
Definition breadcrumbData (toLowerCase : string -> string) (game : Game)
    : list ListItem :=
  [ {| position := 1; item_name := "Home"; item := "https://casualgames.studio" |};
    {| position := 2; item_name := category game;
       item := "https://casualgames.studio/categories/" +:+ toLowerCase (category game) |};
    {| position := 3; item_name := title game;
       item := "https://casualgames.studio/games/" +:+ slug game |} ].

End GamePage.

(** ** The home route: what [Index] renders *)

Module HomeView.

(** The data-dependent part of the markup [Index] returns: the keys of the
    recently-played cards, in order, when that section is rendered at all
    ([recentlyPlayed.length > 0 && ...]), and the keys of the featured
    cards ([key={game.id}] in both lists). *)
Record View : Type := {
  recently_played_section : option (list string);
  featured_section : list string
}.

Definition Index_render (recentlyPlayed featuredGames : list Game) : View :=
  {| recently_played_section :=
       if Nat.ltb 0 (length recentlyPlayed)
       then Some (map id recentlyPlayed)
       else None;
     featured_section := map id featuredGames |}.

End HomeView.

(** ** Sample data for running the definitions *)

Module Sample.

(** A catalog entry with the given id, title and featured flag. *)
Definition game (i t : string) (f : bool) : Game :=
  {| id := i; slug := i; title := t; category := "Puzzle"; tags := ["Casual"];
     description := t; thumbnail := "/images/" +:+ i +:+ ".png";
     rating := Qcanon.Q2Qc (QArith_base.Qmake 9 2); plays := 1200%N;
     featured := f; releaseDate := "2024-01-15";
     metaTitle := None; metaDescription := None;
     iframeHtml := ""; alternativeText := t |}.

Definition tetris : Game := game "tetris" "Tetris" true.
Definition snake : Game := game "snake" "Snake" false.
Definition pong : Game := game "pong" "Pong" true.
Definition chess : Game := game "chess" "Chess" true.
Definition sudoku : Game := game "sudoku" "Sudoku" true.

Definition games : list Game := [tetris; snake; pong; chess; sudoku].

Definition KEY : string := "recentlyPlayed".
Definition CAPACITY : nat := 3.

(** Storage holding a history with one identifier the catalog lacks and
    one identifier stored twice. *)
Definition untidy : Browser.Window :=
  Browser.HasStorage {[ KEY := Json.encode ["pong"; "retired"; "pong"] ]}.

(** Storage whose history value is not an array of strings. *)
Definition corrupt : gmap string string := {[ KEY := "{oops" ]}.

End Sample.

(** A catalog entry whose slug differs from its id, with an empty title
    override, a description override, three tags and seven plays. *)
Module MoreSamples.

Definition duel : Game :=
  {| id := "duel"; slug := "space-duel"; title := "Space Duel";
     category := "Arcade"; tags := ["Arcade"; "Multiplayer"; "Retro"];
     description := "A duel in space."; thumbnail := "/images/duel.png";
     rating := Qcanon.Q2Qc (QArith_base.Qmake 4 1); plays := 7%N;
     featured := false; releaseDate := "2024-03-02";
     metaTitle := Some EmptyString;
     metaDescription := Some "Two ships, one screen.";
     iframeHtml := ""; alternativeText := "Space Duel" |}.

Definition games : list Game := Sample.games ++ [duel].

End MoreSamples.

(** * Properties *)

(** ** Array primitives *)

Module JsArrayFacts.
Import JsArray.

Lemma find_Some_first {A : Type} (p : A -> bool) (arr : list A) (x : A) :
  find p arr = Some x ->
  p x = true /\
  exists before rest, arr = before ++ x :: rest /\ forall y, y ∈ before -> p y = false.
Proof.
  induction arr as [|a arr IH]; simpl; [discriminate|].
  destruct (p a) eqn:Hpa.
  - intros [= <-]. split; [assumption|].
    exists [], arr. split; [reflexivity|]. intros y Hy. inversion Hy.
  - intros Hfind. destruct (IH Hfind) as (Hpx & before & rest & -> & Hbefore).
    split; [assumption|].
    exists (a :: before), rest. split; [reflexivity|].
    intros y Hy. apply elem_of_cons in Hy as [->|Hy]; auto.
Qed.

Lemma find_None {A : Type} (p : A -> bool) (arr : list A) :
  find p arr = None <-> forall y, y ∈ arr -> p y = false.
Proof.
  induction arr as [|a arr IH]; simpl.
  - split; [|reflexivity]. intros _ y Hy. inversion Hy.
  - destruct (p a) eqn:Hpa.
    + split; [discriminate|]. intros Hall.
      rewrite (Hall a) in Hpa; [discriminate|]. apply list_elem_of_here.
    + rewrite IH. split.
      * intros Hall y Hy. apply elem_of_cons in Hy as [->|Hy]; auto.
      * intros Hall y Hy. apply Hall. by apply list_elem_of_further.
Qed.

Lemma elem_of_filter {A : Type} (p : A -> bool) (arr : list A) (x : A) :
  x ∈ filter p arr <-> x ∈ arr /\ p x = true.
Proof.
  induction arr as [|a arr IH]; simpl.
  - split; [inversion 1|intros [H _]; inversion H].
  - destruct (p a) eqn:Hpa; rewrite ?elem_of_cons, IH.
    + split; [intros [->|[? ?]]; auto|intros [[->|?] ?]; auto].
    + split; [intros [? ?]; auto|].
      intros [[->|?] Hpx]; [congruence|auto].
Qed.

Lemma filter_all {A : Type} (p : A -> bool) (arr : list A) :
  (forall x, x ∈ arr -> p x = true) -> filter p arr = arr.
Proof.
  induction arr as [|a arr IH]; simpl; [reflexivity|].
  intros Hall. rewrite (Hall a) by apply list_elem_of_here.
  f_equal. apply IH. intros x Hx. apply Hall. by apply list_elem_of_further.
Qed.

Lemma filter_sublist {A : Type} (p : A -> bool) (arr : list A) :
  filter p arr `sublist_of` arr.
Proof.
  induction arr as [|a arr IH]; simpl; [constructor|].
  destruct (p a); by constructor.
Qed.

Lemma filter_NoDup {A : Type} (p : A -> bool) (arr : list A) :
  NoDup arr -> NoDup (filter p arr).
Proof.
  intros Hnd. eapply sublist_NoDup; [exact Hnd|apply filter_sublist].
Qed.

Lemma filter_defined_app {A : Type} (xs ys : list (option A)) :
  filter_defined (xs ++ ys) = filter_defined xs ++ filter_defined ys.
Proof.
  induction xs as [|[x|] xs IH]; simpl; [reflexivity| |assumption].
  by rewrite IH.
Qed.

Lemma slice_prefix {A : Type} (n : nat) (arr : list A) :
  slice 0 (Z.of_nat n) arr = firstn n arr.
Proof.
  unfold slice, clamp_index.
  replace (0 <? 0)%Z with false by reflexivity.
  destruct (Z.ltb_spec (Z.of_nat n) 0) as [Hneg|_]; [lia|].
  replace (Z.to_nat (Z.min 0 (Z.of_nat (length arr)))) with 0%nat by lia.
  change (skipn 0 arr) with arr.
  destruct (Nat.le_gt_cases n (length arr)) as [Hle|Hgt].
  - f_equal. lia.
  - replace (Z.to_nat _) with (length arr) by lia.
    rewrite firstn_all. symmetry. apply firstn_all2. lia.
Qed.

Example slice_first_three : slice 0 3 [1; 2; 3; 4; 5] = [1; 2; 3].
Proof. reflexivity. Qed.

Example slice_short_array : slice 0 3 [1; 2] = [1; 2].
Proof. reflexivity. Qed.

Example slice_negative_indices : slice (-3) (-1) [1; 2; 3; 4; 5] = [3; 4].
Proof. reflexivity. Qed.

Example find_first_match : find (Nat.leb 3) [1; 4; 3; 5] = Some 4.
Proof. reflexivity. Qed.

End JsArrayFacts.

(** ** The detail route *)

Module GameRouteFacts.
Import JsArray JsArrayFacts GameRoute.

Lemma id_matches_true (p : option string) (g : Game) :
  id_matches p g = true <-> Some (id g) = p.
Proof.
  destruct p as [s|]; simpl.
  - rewrite String.eqb_eq. split; [intros ->|intros [= ->]]; reflexivity.
  - split; discriminate.
Qed.

Lemma id_matches_false (p : option string) (g : Game) :
  id_matches p g = false <-> Some (id g) <> p.
Proof.
  rewrite <- id_matches_true. destruct (id_matches p g); split; congruence.
Qed.

Lemma unique_id_same_game (games : list Game) (g h : Game) :
  NoDup (map id games) -> g ∈ games -> h ∈ games -> id g = id h -> g = h.
Proof.
  induction games as [|a games IH]; [intros _ Hg; inversion Hg|].
  simpl. intros Hnd Hg Hh Hid.
  apply list.NoDup_cons in Hnd as [Hfresh Hnd].
  apply elem_of_cons in Hg as [->|Hg]; apply elem_of_cons in Hh as [->|Hh]; auto.
  - exfalso. apply Hfresh. rewrite Hid. by apply (list_elem_of_fmap_2 id).
  - exfalso. apply Hfresh. rewrite <- Hid. by apply (list_elem_of_fmap_2 id).
Qed.

(** C5. The detail loader throws the 404 "Game not found" response exactly
    when no catalog game has the requested [gameId] as its id (and it throws
    nothing else); when some game [g] has it, the loader returns a catalog
    game with that id, namely the first one in catalog order, which is [g]
    itself as soon as ids are unique in the catalog. *)
Theorem loader_not_found_iff (games : list Game) (params : Params) :
  (loader games params = Thrown {| body := "Game not found"; status := 404 |}
     <-> forall g, g ∈ games -> Some (id g) <> gameId params)
  /\ ((exists r, loader games params = Thrown r)
     <-> ~ exists g, g ∈ games /\ Some (id g) = gameId params)
  /\ (forall g, g ∈ games -> Some (id g) = gameId params ->
       exists found,
         loader games params = Returned found
         /\ found ∈ games
         /\ Some (id found) = gameId params
         /\ (exists before rest,
               games = before ++ found :: rest
               /\ forall h, h ∈ before -> Some (id h) <> gameId params)
         /\ (NoDup (map id games) -> found = g)).
Proof.
  unfold loader.
  destruct (find (id_matches (gameId params)) games) as [found|] eqn:Hfind.
  - apply find_Some_first in Hfind as (Hmatch & before & rest & Hsplit & Hbefore).
    apply id_matches_true in Hmatch.
    assert (Hin : found ∈ games).
    { rewrite Hsplit, elem_of_app, elem_of_cons. auto. }
    split; [|split].
    + split; [discriminate|]. intros Hnone. by destruct (Hnone found Hin).
    + split; [intros [r [=]]|]. intros Hnone. exfalso. apply Hnone. eauto.
    + intros g Hg Hid. exists found. repeat split; auto.
      * exists before, rest. split; [assumption|].
        intros h Hh. by apply id_matches_false, Hbefore.
      * intros Hnd. apply (unique_id_same_game games); auto. congruence.
  - rewrite find_None in Hfind.
    split; [|split].
    + split; [|reflexivity]. intros _ g Hg. by apply id_matches_false, Hfind.
    + split; [|eauto]. intros _ (g & Hg & Hid).
      apply id_matches_true in Hid. rewrite (Hfind g Hg) in Hid. discriminate.
    + intros g Hg Hid. apply id_matches_true in Hid.
      rewrite (Hfind g Hg) in Hid. discriminate.
Qed.

Example loader_sample_found :
  loader Sample.games {| gameId := Some "pong" |} = Returned Sample.pong.
Proof. reflexivity. Qed.

Example loader_sample_missing :
  loader Sample.games {| gameId := Some "retired" |}
  = Thrown {| body := "Game not found"; status := 404 |}.
Proof. reflexivity. Qed.

Example loader_sample_no_param :
  loader Sample.games {| gameId := None |}
  = Thrown {| body := "Game not found"; status := 404 |}.
Proof. reflexivity. Qed.

End GameRouteFacts.

(** ** The home route *)

Module HomeRouteFacts.
Import JsArray JsArrayFacts HomeRoute.

Lemma filterFeatured_take (games : list Game) (limit : nat) :
  filterFeatured games limit = firstn limit (filter featured games).
Proof. apply slice_prefix. Qed.

Lemma take_filter_spec (games : list Game) (limit : nat) :
  firstn limit (filter featured games) = filterFeatured_spec games limit.
Proof.
  revert limit. induction games as [|g games IH]; intros [|n]; simpl; try reflexivity.
  destruct (featured g); simpl; [by rewrite IH|apply (IH (S n))].
Qed.

(** C6. For every catalog and limit, [filterFeatured] is the documented
    walk of the catalog: at most [limit] games, all of them featured, the
    leading featured games of the catalog in catalog order, and every
    featured game when there are no more than [limit]; the home loader is
    this with limit 3. *)
Theorem filterFeatured_correct (games : list Game) (limit : nat) :
  filterFeatured games limit = filterFeatured_spec games limit
  /\ length (filterFeatured games limit) <= limit
  /\ (forall g, g ∈ filterFeatured games limit -> featured g = true /\ g ∈ games)
  /\ (exists later, filter featured games = filterFeatured games limit ++ later)
  /\ filterFeatured games limit `sublist_of` games
  /\ (length (filter featured games) <= limit ->
        filterFeatured games limit = filter featured games)
  /\ loader games = filterFeatured games 3.
Proof.
  rewrite filterFeatured_take.
  split; [apply take_filter_spec|].
  split; [rewrite length_take; lia|].
  split.
  { intros g Hg. apply subseteq_take, elem_of_filter in Hg. tauto. }
  split.
  { exists (skipn limit (filter featured games)). symmetry. apply take_drop. }
  split.
  { etransitivity; [apply sublist_take|apply filter_sublist]. }
  split; [apply take_ge|reflexivity].
Qed.

Lemma recentGames_app (games : list Game) (xs ys : list string) :
  recentGames games (xs ++ ys) = recentGames games xs ++ recentGames games ys.
Proof. unfold recentGames. by rewrite map_app, filter_defined_app. Qed.

Lemma recentGames_cons (games : list Game) (i : string) (ids : list string) :
  recentGames games (i :: ids) =
  match findById games i with
  | Some g => g :: recentGames games ids
  | None => recentGames games ids
  end.
Proof. unfold recentGames. simpl. by destruct (findById games i). Qed.

Lemma recentGames_spec (games : list Game) (ids : list string) :
  recentGames games ids = resolve_spec games ids.
Proof.
  induction ids as [|i ids IH]; [reflexivity|].
  rewrite recentGames_cons. simpl. by rewrite IH.
Qed.

Lemma Index_effect_run (read : Browser.Eff (list string)) (games : list Game)
    (w w' : Browser.Window) (ids : list string) :
  read w = (Returned ids, w') ->
  Index_effect read games w = (Returned (recentGames games ids), w').
Proof.
  intros Hread. unfold Index_effect, mbind, Browser.Eff_bind. by rewrite Hread.
Qed.

(** C10. The read path does not deduplicate: whenever the identifiers read
    by the home view hold a resolvable identifier [i] at two places, the
    resolved list handed to the view holds its game at both places, between
    the resolutions of the identifiers around them. *)
Theorem Index_effect_keeps_duplicates (read : Browser.Eff (list string))
    (games : list Game) (w w' : Browser.Window)
    (l1 l2 l3 : list string) (i : string) (g : Game) :
  read w = (Returned (l1 ++ i :: l2 ++ i :: l3), w') ->
  findById games i = Some g ->
  Index_effect read games w =
    (Returned (recentGames games l1 ++ g :: recentGames games l2
                 ++ g :: recentGames games l3), w').
Proof.
  intros Hread Hfound. rewrite (Index_effect_run _ _ _ _ _ Hread).
  rewrite recentGames_app, recentGames_cons, Hfound.
  by rewrite recentGames_app, recentGames_cons, Hfound.
Qed.

Example loader_sample :
  loader Sample.games = [Sample.tetris; Sample.pong; Sample.chess].
Proof. reflexivity. Qed.

Example filterFeatured_sample_all :
  filterFeatured Sample.games 10
  = [Sample.tetris; Sample.pong; Sample.chess; Sample.sudoku].
Proof. reflexivity. Qed.

Example recentGames_sample :
  recentGames Sample.games ["snake"; "retired"; "tetris"]
  = [Sample.snake; Sample.tetris].
Proof. reflexivity. Qed.

End HomeRouteFacts.

(** ** The recently-played helpers *)

Module TrackerFacts.
Import JsArray JsArrayFacts Browser.

Section Pushed.

Variable capacity : nat.
Local Abbreviation pushed := (Tracker.pushed capacity).

Lemma elem_of_without (g x : string) (l : list string) :
  x ∈ filter (fun i => negb (String.eqb i g)) l <-> x ∈ l /\ x <> g.
Proof.
  rewrite elem_of_filter, negb_true_iff, String.eqb_neq. reflexivity.
Qed.

Lemma without_fresh (g : string) (l : list string) :
  g ∉ l -> filter (fun i => negb (String.eqb i g)) l = l.
Proof.
  intros Hfresh. apply filter_all. intros x Hx.
  apply negb_true_iff, String.eqb_neq. intros ->. contradiction.
Qed.

Lemma pushed_length (g : string) (l : list string) :
  length (pushed g l) <= capacity.
Proof. unfold Tracker.pushed. rewrite length_take. lia. Qed.

Lemma pushed_front (g : string) (l : list string) :
  1 <= capacity -> exists tail, pushed g l = g :: tail /\ g ∉ tail.
Proof.
  intros Hcap. unfold Tracker.pushed.
  destruct capacity as [|n]; [lia|]. simpl.
  eexists. split; [reflexivity|].
  intros Hin. apply subseteq_take, elem_of_without in Hin as [_ Hne]. by apply Hne.
Qed.

Lemma pushed_fresh (g : string) (l : list string) :
  g ∉ l -> pushed g l = firstn capacity (g :: l).
Proof. intros Hfresh. unfold Tracker.pushed. by rewrite without_fresh. Qed.

Lemma pushed_NoDup (g : string) (l : list string) :
  NoDup l -> NoDup (pushed g l).
Proof.
  intros Hnd. unfold Tracker.pushed.
  eapply sublist_NoDup; [|apply sublist_take].
  apply list.NoDup_cons. split; [|by apply filter_NoDup].
  intros Hin. apply elem_of_without in Hin as [_ Hne]. by apply Hne.
Qed.

Lemma take_app_take (n : nat) (xs ys : list string) :
  firstn n (xs ++ firstn n ys) = firstn n (xs ++ ys).
Proof.
  rewrite !take_app, take_take. do 2 f_equal. lia.
Qed.

(** Recording identifiers that are new and pairwise distinct stacks them
    in front, newest first, and cuts at the capacity. *)
Lemma pushed_fold_distinct (xs cur : list string) :
  NoDup xs -> (forall x, x ∈ xs -> x ∉ cur) -> length cur <= capacity ->
  fold_left (fun acc g => pushed g acc) xs cur = firstn capacity (reverse xs ++ cur).
Proof.
  revert cur. induction xs as [|x xs IH]; intros cur Hnd Hfresh Hlen; simpl.
  - symmetry. by apply take_ge.
  - apply list.NoDup_cons in Hnd as [Hx Hnd].
    rewrite IH; [|assumption| |apply pushed_length].
    + rewrite pushed_fresh by (apply Hfresh, list_elem_of_here).
      rewrite take_app_take, reverse_cons, <- app_assoc. reflexivity.
    + intros y Hy Hin.
      rewrite pushed_fresh in Hin by (apply Hfresh, list_elem_of_here).
      apply subseteq_take, elem_of_cons in Hin as [->|Hin]; [contradiction|].
      by apply (Hfresh y); [apply list_elem_of_further|].
Qed.

End Pushed.

Section Runs.

Variable RECENT_KEY : string.
Variable capacity : nat.
Variable decode : string -> option (list string).
Variable encode : list string -> string.

Local Abbreviation getRecentlyPlayed := (Tracker.getRecentlyPlayed RECENT_KEY decode).
Local Abbreviation addToRecentlyPlayed :=
  (Tracker.addToRecentlyPlayed RECENT_KEY capacity decode encode).
Local Abbreviation record_all := (Tracker.record_all RECENT_KEY capacity decode encode).
Local Abbreviation stored := (Tracker.stored RECENT_KEY decode).
Local Abbreviation pushed := (Tracker.pushed capacity).

Lemma getRecentlyPlayed_run (w : Window) :
  getRecentlyPlayed w = (Returned (stored w), w).
Proof.
  unfold Tracker.getRecentlyPlayed, try_catch, mbind, Eff_bind, getItem.
  destruct w as [|ls]; simpl; [reflexivity|].
  destruct (ls !! RECENT_KEY) as [text|]; [|reflexivity].
  by destruct (decode text).
Qed.

Lemma addToRecentlyPlayed_run (ls : gmap string string) (g : string) :
  addToRecentlyPlayed g (HasStorage ls) =
  (Returned tt,
   HasStorage (<[RECENT_KEY := encode (pushed g (stored (HasStorage ls)))]> ls)).
Proof.
  unfold Tracker.addToRecentlyPlayed, try_catch, mbind, Eff_bind.
  by rewrite getRecentlyPlayed_run.
Qed.

Lemma addToRecentlyPlayed_NoStorage (g : string) :
  addToRecentlyPlayed g NoStorage = (Returned tt, NoStorage).
Proof.
  unfold Tracker.addToRecentlyPlayed, try_catch, mbind, Eff_bind.
  by rewrite getRecentlyPlayed_run.
Qed.

Lemma list_run (games : list Game) (w : Window) :
  HomeRoute.Index_effect getRecentlyPlayed games w =
  (Returned (HomeRoute.recentGames games (stored w)), w).
Proof. apply HomeRouteFacts.Index_effect_run, getRecentlyPlayed_run. Qed.

Lemma stored_absent (ls : gmap string string) :
  ls !! RECENT_KEY = None -> stored (HasStorage ls) = [].
Proof. intros Hnone. simpl. by rewrite Hnone. Qed.

Lemma stored_corrupt (ls : gmap string string) (raw : string) :
  ls !! RECENT_KEY = Some raw -> decode raw = None -> stored (HasStorage ls) = [].
Proof. intros Hraw Hbad. simpl. by rewrite Hraw, Hbad. Qed.

(** C7. [list()] never throws and writes nothing. The home view's effect
    adds no write and no throw to its read of the identifiers: it ends in
    the environment the read left, with the resolved games. With the
    documented read it therefore returns in every environment and leaves it
    as it found it, so an identifier the catalog does not know is still
    stored afterwards. *)
Theorem list_leaves_storage_unchanged (games : list Game) :
  (forall (read : Eff (list string)) (w w' : Window) (ids : list string),
     read w = (Returned ids, w') ->
     HomeRoute.Index_effect read games w
       = (Returned (HomeRoute.recentGames games ids), w'))
  /\ (forall w : Window,
        (exists gs, HomeRoute.Index_effect getRecentlyPlayed games w = (Returned gs, w))
        /\ after (HomeRoute.Index_effect getRecentlyPlayed games) w = w
        /\ (forall ids i,
              result getRecentlyPlayed w = Returned ids ->
              i ∈ ids -> HomeRoute.findById games i = None ->
              result getRecentlyPlayed
                (after (HomeRoute.Index_effect getRecentlyPlayed games) w)
              = Returned ids)).
Proof.
  split; [intros read w w' ids; apply HomeRouteFacts.Index_effect_run|].
  intros w. unfold after. rewrite list_run. cbn [snd]. eauto.
Qed.

(** C8. [list()] is a pure read. Over any read of the identifiers that
    leaves the environment alone, two runs of the home view's effect in a
    row return the same games; with the documented read this holds in every
    environment, and with nothing persisted the result is the empty
    sequence. *)
Theorem list_is_pure_read (games : list Game) :
  (forall (read : Eff (list string)) (w : Window) (ids : list string),
     read w = (Returned ids, w) ->
     (first ← HomeRoute.Index_effect read games;
      second ← HomeRoute.Index_effect read games;
      mret (first, second)) w
     = (Returned (HomeRoute.recentGames games ids, HomeRoute.recentGames games ids), w))
  /\ (forall ls, ls !! RECENT_KEY = None ->
        result (HomeRoute.Index_effect getRecentlyPlayed games) (HasStorage ls)
          = Returned [])
  /\ (forall w,
        result (HomeRoute.Index_effect getRecentlyPlayed games)
          (after (HomeRoute.Index_effect getRecentlyPlayed games) w)
        = result (HomeRoute.Index_effect getRecentlyPlayed games) w)
  /\ (forall w, exists gs,
        (first ← HomeRoute.Index_effect getRecentlyPlayed games;
         second ← HomeRoute.Index_effect getRecentlyPlayed games;
         mret (first, second)) w = (Returned (gs, gs), w)).
Proof.
  assert (Htwice : forall (read : Eff (list string)) w ids,
             read w = (Returned ids, w) ->
             (first ← HomeRoute.Index_effect read games;
              second ← HomeRoute.Index_effect read games;
              mret (first, second)) w
             = (Returned (HomeRoute.recentGames games ids,
                          HomeRoute.recentGames games ids), w)).
  { intros read w ids Hread. unfold mbind, Eff_bind.
    by rewrite !(HomeRouteFacts.Index_effect_run read games w w ids Hread). }
  split; [exact Htwice|]. split; [|split].
  - intros ls Hnone. unfold result. rewrite list_run.
    rewrite (stored_absent ls Hnone). reflexivity.
  - intros w. unfold result, after. by rewrite !list_run.
  - intros w. eexists. apply Htwice, getRecentlyPlayed_run.
Qed.

(** C9. Without usable storage, [record] does nothing and [list()] returns
    the empty sequence; both return normally. *)
Theorem unavailable_storage_degrades (games : list Game) (g : string) :
  addToRecentlyPlayed g NoStorage = (Returned tt, NoStorage)
  /\ getRecentlyPlayed NoStorage = (Returned [], NoStorage)
  /\ HomeRoute.Index_effect getRecentlyPlayed games NoStorage = (Returned [], NoStorage).
Proof.
  split; [apply addToRecentlyPlayed_NoStorage|].
  split; [apply getRecentlyPlayed_run|apply list_run].
Qed.

(** From here on the codec reads back what it wrote. *)
Hypothesis decode_encode : forall l, decode (encode l) = Some l.

Lemma stored_written (ls : gmap string string) (l : list string) :
  stored (HasStorage (<[RECENT_KEY := encode l]> ls)) = l.
Proof. simpl. by rewrite lookup_insert_eq, decode_encode. Qed.

Lemma record_all_run (gs : list string) (ls : gmap string string) :
  exists ls',
    record_all gs (HasStorage ls) = (Returned tt, HasStorage ls')
    /\ stored (HasStorage ls') =
       fold_left (fun acc g => pushed g acc) gs (stored (HasStorage ls)).
Proof.
  revert ls. induction gs as [|g gs IH]; intros ls.
  - exists ls. split; reflexivity.
  - destruct (IH (<[RECENT_KEY := encode (pushed g (stored (HasStorage ls)))]> ls))
      as (ls' & Hrun & Hstored).
    exists ls'. split.
    + simpl. unfold mbind, Eff_bind. by rewrite addToRecentlyPlayed_run.
    + rewrite Hstored, stored_written. reflexivity.
Qed.

Lemma read_result (w : Window) :
  result getRecentlyPlayed w = Returned (stored w).
Proof. unfold result. by rewrite getRecentlyPlayed_run. Qed.

Lemma list_result (games : list Game) (w : Window) :
  result (HomeRoute.Index_effect getRecentlyPlayed games) w =
  Returned (HomeRoute.recentGames games (stored w)).
Proof. unfold result. by rewrite list_run. Qed.

Lemma stored_after_record_all (gs : list string) (ls : gmap string string) :
  stored (after (record_all gs) (HasStorage ls)) =
  fold_left (fun acc g => pushed g acc) gs (stored (HasStorage ls)).
Proof.
  destruct (record_all_run gs ls) as (ls' & Hrun & Hstored).
  unfold after. by rewrite Hrun.
Qed.

Lemma read_after_record_all (gs : list string) (ls : gmap string string) :
  result getRecentlyPlayed (after (record_all gs) (HasStorage ls)) =
  Returned (fold_left (fun acc g => pushed g acc) gs (stored (HasStorage ls))).
Proof. by rewrite read_result, stored_after_record_all. Qed.

Lemma stored_two_records (ls : gmap string string) (x y : string) :
  2 <= capacity -> ls !! RECENT_KEY = None -> x <> y ->
  stored (after (record_all [x; y]) (HasStorage ls)) = [y; x].
Proof.
  intros Hcap Hnone Hne.
  rewrite stored_after_record_all, (stored_absent ls Hnone).
  rewrite pushed_fold_distinct.
  - rewrite app_nil_r. apply take_ge. simpl. lia.
  - apply list.NoDup_cons. split; [|apply NoDup_singleton].
    by intros ->%list_elem_of_singleton.
  - intros ? _. apply not_elem_of_nil.
  - simpl. lia.
Qed.

(** C1. With room for at least one entry, whatever the storage held,
    [record g] returns and leaves a sequence that starts with [g] and holds
    [g] nowhere else (and no identifier twice, if none was there twice
    before); with room for two, recording [a], [b], [a] (two different
    identifiers) on an empty store leaves [a; b]. *)
Theorem record_moves_to_front (ls : gmap string string) (g : string) :
  1 <= capacity ->
  result (addToRecentlyPlayed g) (HasStorage ls) = Returned tt
  /\ (exists tail,
        after (addToRecentlyPlayed g) (HasStorage ls)
          = HasStorage (<[RECENT_KEY := encode (g :: tail)]> ls)
        /\ result getRecentlyPlayed (after (addToRecentlyPlayed g) (HasStorage ls))
          = Returned (g :: tail)
        /\ (g ∉ tail)
        /\ (forall before,
              result getRecentlyPlayed (HasStorage ls) = Returned before ->
              NoDup before -> NoDup (g :: tail)))
  /\ (forall a b, 2 <= capacity -> ls !! RECENT_KEY = None -> a <> b ->
        result getRecentlyPlayed (after (record_all [a; b; a]) (HasStorage ls))
          = Returned [a; b]).
Proof.
  intros Hcap. unfold result, after. rewrite addToRecentlyPlayed_run. cbn [fst snd].
  split; [reflexivity|]. split.
  - destruct (pushed_front capacity g (stored (HasStorage ls)) Hcap) as (tail & Hpush & Hfresh).
    exists tail. rewrite Hpush.
    split; [reflexivity|]. split; [by rewrite getRecentlyPlayed_run, stored_written|].
    split; [assumption|].
    intros before Hbefore Hnd. rewrite getRecentlyPlayed_run in Hbefore.
    injection Hbefore as <-. rewrite <- Hpush. by apply pushed_NoDup.
  - intros a b Hcap2 Hnone Hne.
    pose proof (read_after_record_all [a; b; a] ls) as Hread.
    unfold result, after in Hread. rewrite Hread, (stored_absent ls Hnone).
    destruct capacity as [|[|n]]; [lia|lia|].
    apply String.eqb_neq in Hne as Hab.
    assert (Hba : String.eqb b a = false) by (apply String.eqb_neq; congruence).
    simpl. unfold Tracker.pushed. simpl.
    rewrite Hab, Hba. simpl. rewrite String.eqb_refl. simpl.
    by destruct n.
Qed.

(** C2. Starting from an empty store, after any run of [record] calls the
    stored sequence has at most [capacity] entries; after capacity+1
    pairwise different identifiers it has exactly [capacity] entries: all of
    them but the first one recorded, newest first. *)
Theorem history_bounded_by_capacity :
  (forall ls gs, ls !! RECENT_KEY = None ->
     exists l,
       result getRecentlyPlayed (after (record_all gs) (HasStorage ls)) = Returned l
       /\ length l <= capacity)
  /\ (forall ls g0 rest,
        ls !! RECENT_KEY = None -> NoDup (g0 :: rest) -> length rest = capacity ->
        exists l,
          result getRecentlyPlayed (after (record_all (g0 :: rest)) (HasStorage ls))
            = Returned l
          /\ length l = capacity
          /\ (g0 ∉ l)
          /\ (forall g, g ∈ rest -> g ∈ l)
          /\ l = reverse rest).
Proof.
  split.
  - intros ls gs Hnone. eexists. split; [apply read_after_record_all|].
    rewrite (stored_absent ls Hnone).
    destruct gs as [|g gs _] using rev_ind; [simpl; lia|].
    rewrite fold_left_app. simpl. apply pushed_length.
  - intros ls g0 rest Hnone Hnd Hlen.
    exists (reverse rest).
    apply list.NoDup_cons in Hnd as Hnd'. destruct Hnd' as [Hfresh _].
    repeat split.
    + rewrite read_after_record_all, (stored_absent ls Hnone).
      rewrite pushed_fold_distinct; [|assumption|intros x _; apply not_elem_of_nil|simpl; lia].
      rewrite app_nil_r, reverse_cons. f_equal.
      apply take_app_length'. by rewrite length_reverse.
    + by rewrite length_reverse.
    + by rewrite elem_of_reverse.
    + intros g Hg. by rewrite elem_of_reverse.
Qed.

(** C3. [list()] returns the games obtained by resolving the identifiers
    it reads one by one with [findById], unresolved ones dropped, in the
    order read (whatever the read delivers, and so for the stored sequence);
    after [record x; record y] on an empty store with room for two, it
    returns the game of [y] and then the game of [x]. *)
Theorem list_resolves_in_stored_order (games : list Game) :
  (forall (read : Eff (list string)) (w w' : Window) (ids : list string),
     read w = (Returned ids, w') ->
     result (HomeRoute.Index_effect read games) w
       = Returned (HomeRoute.resolve_spec games ids))
  /\ (forall w, exists ids,
        getRecentlyPlayed w = (Returned ids, w)
        /\ result (HomeRoute.Index_effect getRecentlyPlayed games) w
           = Returned (HomeRoute.resolve_spec games ids))
  /\ (forall ls x y gx gy,
        2 <= capacity -> ls !! RECENT_KEY = None -> x <> y ->
        HomeRoute.findById games x = Some gx ->
        HomeRoute.findById games y = Some gy ->
        result getRecentlyPlayed (after (record_all [x; y]) (HasStorage ls))
          = Returned [y; x]
        /\ result (HomeRoute.Index_effect getRecentlyPlayed games)
             (after (record_all [x; y]) (HasStorage ls))
           = Returned [gy; gx]).
Proof.
  split; [|split].
  - intros read w w' ids Hread. unfold result.
    by rewrite (HomeRouteFacts.Index_effect_run read games w w' ids Hread),
         HomeRouteFacts.recentGames_spec.
  - intros w. exists (stored w). split; [apply getRecentlyPlayed_run|].
    unfold result. by rewrite list_run, HomeRouteFacts.recentGames_spec.
  - intros ls x y gx gy Hcap Hnone Hne Hx Hy.
    rewrite read_result, list_result, (stored_two_records ls x y Hcap Hnone Hne).
    split; [reflexivity|].
    by rewrite !HomeRouteFacts.recentGames_cons, Hx, Hy.
Qed.

(** C4. When the stored value does not parse as a sequence of strings,
    [record g] (with room for at least one entry) returns normally, having
    replaced the value by the encoding of [[g]], which reads back as [[g]];
    and on that same corrupt value [list()] returns the empty sequence. *)
Theorem corrupt_storage_fallback (games : list Game) (ls : gmap string string)
    (raw g : string) :
  1 <= capacity -> ls !! RECENT_KEY = Some raw -> decode raw = None ->
  addToRecentlyPlayed g (HasStorage ls)
    = (Returned tt, HasStorage (<[RECENT_KEY := encode [g]]> ls))
  /\ result getRecentlyPlayed (after (addToRecentlyPlayed g) (HasStorage ls))
     = Returned [g]
  /\ HomeRoute.Index_effect getRecentlyPlayed games (HasStorage ls)
     = (Returned [], HasStorage ls).
Proof.
  intros Hcap Hraw Hbad.
  assert (Hadd : addToRecentlyPlayed g (HasStorage ls)
                 = (Returned tt, HasStorage (<[RECENT_KEY := encode [g]]> ls))).
  { rewrite addToRecentlyPlayed_run, (stored_corrupt ls raw Hraw Hbad).
    unfold Tracker.pushed. destruct capacity; [lia|]. simpl. by rewrite take_nil. }
  split; [exact Hadd|]. split.
  - rewrite read_result. unfold after. rewrite Hadd. cbn [snd].
    by rewrite stored_written.
  - by rewrite list_run, (stored_corrupt ls raw Hraw Hbad).
Qed.

End Runs.
End TrackerFacts.

(** ** The reference codec reads back what it writes *)

Module JsonFacts.
Import Json.

Lemma append_cons (a : ascii) (s rest : string) :
  String a s +:+ rest = String a (s +:+ rest).
Proof. reflexivity. Qed.

Lemma append_snoc (cur : string) (c : ascii) (rest : string) :
  (cur +:+ String c EmptyString) +:+ rest = cur +:+ String c rest.
Proof.
  induction cur as [|a cur IH]; [reflexivity|].
  by rewrite !append_cons, IH.
Qed.

Lemma append_empty (cur : string) : cur +:+ EmptyString = cur.
Proof.
  induction cur as [|a cur IH]; [reflexivity|].
  by rewrite append_cons, IH.
Qed.

Lemma run_escape (s : string) (done : list string) (cur k : string) :
  run (InString done cur) (escape s +:+ k) = run (InString done (cur +:+ s)) k.
Proof.
  revert cur. induction s as [|c s IH]; intros cur; simpl.
  - by rewrite append_empty.
  - destruct (Ascii.eqb c dquote) eqn:Hdq; simpl.
    + rewrite Hdq. simpl. by rewrite IH, append_snoc.
    + destruct (Ascii.eqb c backslash) eqn:Hbs; simpl.
      * rewrite Hdq, Hbs. simpl. by rewrite IH, append_snoc.
      * rewrite Hdq, Hbs. by rewrite IH, append_snoc.
Qed.

Lemma run_string (s : string) (done : list string) (k : string) :
  run (InString done EmptyString) (escape s +:+ String dquote k)
  = run (AfterElem (s :: done)) k.
Proof. rewrite run_escape. reflexivity. Qed.

Lemma run_tail (l done : list string) :
  run (AfterElem done) (enc_tail l) = Some (AtEnd (rev l ++ done)).
Proof.
  revert done. induction l as [|x l IH]; intros done; [reflexivity|].
  simpl enc_tail. unfold quoted.
  change (run (InString done EmptyString)
            (escape x +:+ String dquote (enc_tail l))
          = Some (AtEnd (rev (x :: l) ++ done))).
  rewrite run_string, IH. simpl. by rewrite <- app_assoc.
Qed.

Lemma decode_encode_roundtrip (l : list string) : decode (encode l) = Some l.
Proof.
  destruct l as [|x l]; [reflexivity|].
  unfold decode, encode, quoted.
  change (match run (InString [] EmptyString)
                  (escape x +:+ String dquote (enc_tail l)) with
          | Some (AtEnd done) => Some (rev done)
          | _ => None
          end = Some (x :: l)).
  rewrite run_string, run_tail, rev_app_distr, rev_involutive. reflexivity.
Qed.

End JsonFacts.

(** ** The results on the sample data *)

Module Witnesses.
Import Browser.

Local Abbreviation get := (Tracker.getRecentlyPlayed Sample.KEY Json.decode).
Local Abbreviation add :=
  (Tracker.addToRecentlyPlayed Sample.KEY Sample.CAPACITY Json.decode Json.encode).
Local Abbreviation record_all :=
  (Tracker.record_all Sample.KEY Sample.CAPACITY Json.decode Json.encode).
Local Abbreviation list_games := (HomeRoute.Index_effect get Sample.games).

Lemma room_for_two : 2 <= Sample.CAPACITY.
Proof. unfold Sample.CAPACITY. lia. Defined.

Lemma room_for_one : 1 <= Sample.CAPACITY.
Proof. unfold Sample.CAPACITY. lia. Defined.

(** C1 on the sample: recording "pong" over a history that already holds it
    twice, and the run a, b, a on an empty store. *)
Lemma record_moves_to_front_witness :
  (1 <= Sample.CAPACITY /\ 2 <= Sample.CAPACITY)
  /\ result (add "pong") Sample.untidy = Returned tt
  /\ (exists tail,
        after (add "pong") Sample.untidy
          = HasStorage (<[Sample.KEY := Json.encode ("pong" :: tail)]>
                          {[ Sample.KEY := Json.encode ["pong"; "retired"; "pong"] ]})
        /\ result get (after (add "pong") Sample.untidy) = Returned ("pong" :: tail)
        /\ ("pong" ∉ tail)
        /\ (forall before,
              result get Sample.untidy = Returned before ->
              NoDup before -> NoDup ("pong" :: tail)))
  /\ result get (after (record_all ["a"; "b"; "a"]) (HasStorage ∅)) = Returned ["a"; "b"].
Proof.
  split; [split; [apply room_for_one|apply room_for_two]|].
  destruct (TrackerFacts.record_moves_to_front Sample.KEY Sample.CAPACITY
              Json.decode Json.encode JsonFacts.decode_encode_roundtrip
              {[ Sample.KEY := Json.encode ["pong"; "retired"; "pong"] ]} "pong"
              room_for_one) as (Hret & Hfront & _).
  destruct (TrackerFacts.record_moves_to_front Sample.KEY Sample.CAPACITY
              Json.decode Json.encode JsonFacts.decode_encode_roundtrip ∅ "a"
              room_for_one) as (_ & _ & Haba).
  split; [exact Hret|]. split; [exact Hfront|].
  apply Haba; [apply room_for_two|apply lookup_empty|discriminate].
Defined.

(** C2 on the sample (capacity 3): a run with repeats stays within the
    capacity, and four different identifiers leave the last three. *)
Lemma history_bounded_by_capacity_witness :
  (NoDup ["a"; "b"; "c"; "d"] /\ length ["b"; "c"; "d"] = Sample.CAPACITY)
  /\ (exists l,
        result get (after (record_all ["a"; "b"; "a"; "c"; "d"]) (HasStorage ∅))
          = Returned l
        /\ length l <= Sample.CAPACITY)
  /\ (exists l,
        result get (after (record_all ["a"; "b"; "c"; "d"]) (HasStorage ∅)) = Returned l
        /\ length l = Sample.CAPACITY
        /\ ("a" ∉ l)
        /\ (forall g, g ∈ ["b"; "c"; "d"] -> g ∈ l)
        /\ l = reverse ["b"; "c"; "d"]).
Proof.
  assert (Hnd : NoDup ["a"; "b"; "c"; "d"]) by compute_done.
  destruct (TrackerFacts.history_bounded_by_capacity Sample.KEY Sample.CAPACITY
              Json.decode Json.encode JsonFacts.decode_encode_roundtrip) as [Hbound Hevict].
  split; [split; [exact Hnd|reflexivity]|].
  split.
  - apply Hbound, lookup_empty.
  - apply Hevict; [apply lookup_empty|exact Hnd|reflexivity].
Defined.

(** C3 on the sample: the untidy history resolves in stored order, and
    recording "snake" then "pong" lists Pong before Snake. *)
Lemma list_resolves_in_stored_order_witness :
  (HomeRoute.findById Sample.games "snake" = Some Sample.snake
   /\ HomeRoute.findById Sample.games "pong" = Some Sample.pong)
  /\ (exists ids,
        get Sample.untidy = (Returned ids, Sample.untidy)
        /\ result list_games Sample.untidy
           = Returned (HomeRoute.resolve_spec Sample.games ids))
  /\ result get (after (record_all ["snake"; "pong"]) (HasStorage ∅))
     = Returned ["pong"; "snake"]
  /\ result list_games (after (record_all ["snake"; "pong"]) (HasStorage ∅))
     = Returned [Sample.pong; Sample.snake].
Proof.
  destruct (TrackerFacts.list_resolves_in_stored_order Sample.KEY Sample.CAPACITY
              Json.decode Json.encode JsonFacts.decode_encode_roundtrip Sample.games)
    as (_ & Hresolve & Hexample).
  split; [split; reflexivity|].
  split; [apply Hresolve|].
  apply Hexample;
    [apply room_for_two|apply lookup_empty|discriminate|reflexivity|reflexivity].
Defined.

(** C4 on the sample: a value that is not JSON at all. *)
Lemma corrupt_storage_fallback_witness :
  (Sample.corrupt !! Sample.KEY = Some "{oops" /\ Json.decode "{oops" = None)
  /\ add "pong" (HasStorage Sample.corrupt)
     = (Returned tt, HasStorage (<[Sample.KEY := Json.encode ["pong"]]> Sample.corrupt))
  /\ result get (after (add "pong") (HasStorage Sample.corrupt)) = Returned ["pong"]
  /\ list_games (HasStorage Sample.corrupt) = (Returned [], HasStorage Sample.corrupt).
Proof.
  assert (Hraw : Sample.corrupt !! Sample.KEY = Some "{oops") by apply lookup_singleton_eq.
  assert (Hbad : Json.decode "{oops" = None) by reflexivity.
  split; [split; [exact Hraw|exact Hbad]|].
  exact (TrackerFacts.corrupt_storage_fallback Sample.KEY Sample.CAPACITY
           Json.decode Json.encode JsonFacts.decode_encode_roundtrip Sample.games
           Sample.corrupt "{oops" "pong" room_for_one Hraw Hbad).
Defined.

(** C10 on the sample: "pong" is stored twice around an identifier the
    catalog lacks, and the view gets Pong twice. *)
Lemma Index_effect_keeps_duplicates_witness :
  (get Sample.untidy = (Returned ([] ++ "pong" :: ["retired"] ++ "pong" :: []), Sample.untidy)
   /\ HomeRoute.findById Sample.games "pong" = Some Sample.pong)
  /\ list_games Sample.untidy = (Returned [Sample.pong; Sample.pong], Sample.untidy).
Proof.
  assert (Hread : get Sample.untidy
                  = (Returned ([] ++ "pong" :: ["retired"] ++ "pong" :: []), Sample.untidy))
    by (vm_compute; reflexivity).
  assert (Hfound : HomeRoute.findById Sample.games "pong" = Some Sample.pong)
    by reflexivity.
  split; [split; [exact Hread|exact Hfound]|].
  exact (HomeRouteFacts.Index_effect_keeps_duplicates get Sample.games
           Sample.untidy Sample.untidy [] ["retired"] [] "pong" Sample.pong
           Hread Hfound).
Defined.

End Witnesses.

(** ** Strings and arrays of strings on the detail page *)

Module JsFacts.
Import Js.



Lemma append_inj_l (p s t : string) : p +:+ s = p +:+ t -> s = t.
Proof.
  induction p as [|c p IH]; [trivial|].
  rewrite !JsonFacts.append_cons. intros [= H]. auto.
Qed.

Lemma or_else_truthy (s b : string) : s <> EmptyString -> or_else (Some s) b = s.
Proof. destruct s; [congruence|reflexivity]. Qed.

Lemma or_else_falsy (a : option string) (b : string) :
  a = None \/ a = Some EmptyString -> or_else a b = b.
Proof. intros [->| ->]; reflexivity. Qed.


Lemma includes_true (arr : list string) (x : string) :
  includes arr x = true <-> x ∈ arr.
Proof.
  induction arr as [|y arr IH]; simpl.
  - split; [discriminate|inversion 1].
  - rewrite elem_of_cons. destruct (String.eqb_spec y x) as [->|Hne].
    + split; auto.
    + rewrite IH. split; [auto|]. intros [->|Hin]; [congruence|assumption].
Qed.



End JsFacts.

(** ** The detail route: [meta] *)

Module GameMetaFacts.
Import Js JsFacts GameMeta.


(** X2. [meta] takes an SEO override only when it is a non-empty string.
    With such a [metaTitle] the title, og:title and twitter:title entries
    all carry it; with [metaTitle] missing or empty the title entry is the
    game's title with the site suffix and the two social titles are the
    bare title. The three description entries follow [metaDescription] in
    the same way, falling back to the game's description. *)
Theorem meta_override_rule (game : Game) (location : Location) :
  (forall s, metaTitle game = Some s -> s <> EmptyString ->
     titles (meta (Some game) location) = [s]
     /\ properties "og:title" (meta (Some game) location) = [s]
     /\ named "twitter:title" (meta (Some game) location) = [s])
  /\ (metaTitle game = None \/ metaTitle game = Some EmptyString ->
      titles (meta (Some game) location)
        = [title game +:+ " - Play Online | Casual Games"]
      /\ properties "og:title" (meta (Some game) location) = [title game]
      /\ named "twitter:title" (meta (Some game) location) = [title game])
  /\ (forall s, metaDescription game = Some s -> s <> EmptyString ->
      named "description" (meta (Some game) location) = [s]
      /\ properties "og:description" (meta (Some game) location) = [s]
      /\ named "twitter:description" (meta (Some game) location) = [s])
  /\ (metaDescription game = None \/ metaDescription game = Some EmptyString ->
      named "description" (meta (Some game) location) = [description game]
      /\ properties "og:description" (meta (Some game) location) = [description game]
      /\ named "twitter:description" (meta (Some game) location) = [description game]).
Proof.
  split; [|split; [|split]].
  - intros s Hs Hne. simpl. rewrite Hs, !or_else_truthy by assumption. auto.
  - intros Hfalsy. simpl. rewrite !or_else_falsy by assumption. auto.
  - intros s Hs Hne. simpl. rewrite Hs, !or_else_truthy by assumption. auto.
  - intros Hfalsy. simpl. rewrite !or_else_falsy by assumption. auto.
Qed.


(** X4. On the page served at [/games/<id>], the canonical link of [meta]
    and the breadcrumb's last entry (position 3, the page itself) name the
    same URL exactly when the game's slug equals its id. Asking the loader
    for the slug returns the game only in that case, and does return it
    then when the game is in the catalog and ids are unique. *)
Theorem breadcrumb_own_link (toLowerCase : string -> string) (games : list Game)
    (game : Game) :
  (exists home group own,
     GamePage.breadcrumbData toLowerCase game = [home; group; own]
     /\ GamePage.position own = 3
     /\ (links "canonical" (meta (Some game) {| pathname := "/games/" +:+ id game |})
           = [GamePage.item own]
         <-> slug game = id game))
  /\ (GameRoute.loader games {| GameRoute.gameId := Some (slug game) |} = Returned game ->
      slug game = id game)
  /\ (game ∈ games -> NoDup (map id games) -> slug game = id game ->
      GameRoute.loader games {| GameRoute.gameId := Some (slug game) |} = Returned game).
Proof.
  split; [|split].
  - do 3 eexists. split; [reflexivity|]. split; [reflexivity|]. simpl.
    change ("https://casualgames.studio" +:+ "/games/" +:+ id game)
      with ("https://casualgames.studio/games/" +:+ id game).
    split.
    + intros [= Heq]. by apply append_inj_l in Heq.
    + by intros ->.
  - unfold GameRoute.loader. simpl.
    destruct (JsArray.find _ games) as [found|] eqn:Hfind; [|discriminate].
    intros [= ->]. apply JsArrayFacts.find_Some_first in Hfind as [Hmatch _].
    apply GameRouteFacts.id_matches_true in Hmatch. congruence.
  - intros Hin Hnd Hslug. unfold GameRoute.loader. simpl.
    destruct (JsArray.find _ games) as [found|] eqn:Hfind.
    + apply JsArrayFacts.find_Some_first in Hfind
        as (Hmatch & before & rest & Hsplit & _).
      apply GameRouteFacts.id_matches_true in Hmatch.
      f_equal. apply (GameRouteFacts.unique_id_same_game games); auto.
      * rewrite Hsplit, elem_of_app, elem_of_cons. auto.
      * congruence.
    + rewrite JsArrayFacts.find_None in Hfind.
      specialize (Hfind game Hin). apply GameRouteFacts.id_matches_false in Hfind.
      congruence.
Qed.

End GameMetaFacts.

(** ** The detail route: structured data *)

Module GamePageFacts.
Import Js JsFacts GamePage.


(** X6. The structured data's [numberOfPlayers] is "MultiPlayer" exactly
    when the tag "Multiplayer", spelled so, is among the game's tags, and
    "SinglePlayer" otherwise; it takes no other value. *)
Theorem structuredData_players (number_to_string : Qcanon.Qc -> string)
    (game : Game) :
  (vg_numberOfPlayers (structuredData number_to_string game) = "MultiPlayer"
     <-> "Multiplayer" ∈ tags game)
  /\ (vg_numberOfPlayers (structuredData number_to_string game) = "SinglePlayer"
     <-> "Multiplayer" ∉ tags game).
Proof.
  simpl. rewrite <- (includes_true (tags game) "Multiplayer").
  destruct (includes (tags game) "Multiplayer"); split; split;
    try discriminate; try reflexivity; congruence.
Qed.

End GamePageFacts.

(** ** The home route and the detail route on one catalog *)

Module CatalogFacts.
Import JsArray JsArrayFacts HomeRoute HomeRouteFacts.

Lemma find_app {A : Type} (p : A -> bool) (xs ys : list A) :
  find p (xs ++ ys) = match find p xs with Some x => Some x | None => find p ys end.
Proof.
  induction xs as [|x xs IH]; simpl; [reflexivity|].
  by destruct (p x).
Qed.

Lemma filter_app {A : Type} (p : A -> bool) (xs ys : list A) :
  filter p (xs ++ ys) = filter p xs ++ filter p ys.
Proof.
  induction xs as [|x xs IH]; simpl; [reflexivity|].
  destruct (p x); simpl; by rewrite IH.
Qed.

Lemma filter_nil_iff {A : Type} (p : A -> bool) (xs : list A) :
  filter p xs = [] <-> forall x, x ∈ xs -> p x = false.
Proof.
  induction xs as [|x xs IH]; simpl.
  - split; [intros _ y Hy; inversion Hy|reflexivity].
  - destruct (p x) eqn:Hpx.
    + split; [discriminate|]. intros Hall.
      rewrite (Hall x) in Hpx; [discriminate|apply list_elem_of_here].
    + rewrite IH. split.
      * intros Hall y Hy. apply elem_of_cons in Hy as [->|Hy]; auto.
      * intros Hall y Hy. apply Hall. by apply list_elem_of_further.
Qed.

Lemma loader_take (games : list Game) :
  loader games = firstn 3 (filter featured games).
Proof. apply (slice_prefix 3). Qed.

Lemma findById_Some (games : list Game) (i : string) (g : Game) :
  findById games i = Some g -> id g = i /\ g ∈ games.
Proof.
  intros Hfind. apply find_Some_first in Hfind as (Hid & before & rest & -> & _).
  apply String.eqb_eq in Hid. split; [assumption|].
  rewrite elem_of_app, elem_of_cons. auto.
Qed.

Lemma findById_own_id (games : list Game) (i : string) (g : Game) :
  findById games i = Some g -> findById games (id g) = Some g.
Proof. intros Hfind. by destruct (findById_Some games i g Hfind) as [-> _]. Qed.

Lemma loader_findById (games : list Game) (i : string) :
  GameRoute.loader games {| GameRoute.gameId := Some i |}
  = match findById games i with
    | Some g => Returned g
    | None => Thrown {| GameRoute.body := "Game not found"; GameRoute.status := 404 |}
    end.
Proof. reflexivity. Qed.

Lemma elem_of_recentGames (games : list Game) (ids : list string) (g : Game) :
  g ∈ recentGames games ids <-> exists i, i ∈ ids /\ findById games i = Some g.
Proof.
  induction ids as [|i ids IH].
  - split; [inversion 1|intros (i & Hi & _); inversion Hi].
  - rewrite recentGames_cons. destruct (findById games i) as [h|] eqn:Hfind.
    + rewrite elem_of_cons, IH. split.
      * intros [->|(j & Hj & Hg)].
        -- exists i. split; [apply list_elem_of_here|assumption].
        -- exists j. split; [by apply list_elem_of_further|assumption].
      * intros (j & Hj & Hg). apply elem_of_cons in Hj as [->|Hj].
        -- left. congruence.
        -- right. eauto.
    + rewrite IH. split.
      * intros (j & Hj & Hg). exists j. split; [by apply list_elem_of_further|assumption].
      * intros (j & Hj & Hg). apply elem_of_cons in Hj as [->|Hj]; [congruence|eauto].
Qed.

Lemma recentGames_keys (games : list Game) (ids : list string) :
  map id (recentGames games ids)
  = filter (fun i => match findById games i with Some _ => true | None => false end) ids.
Proof.
  induction ids as [|i ids IH]; [reflexivity|].
  rewrite recentGames_cons. simpl.
  destruct (findById games i) as [g|] eqn:Hfind; [|assumption].
  simpl. rewrite IH. f_equal. by apply findById_Some in Hfind as [-> _].
Qed.

(** X7. The ids of the games the home view resolves are exactly the
    identifiers read that the catalog knows, in the order read: nothing is
    added, so there are no more games than identifiers, every game comes
    from the catalog under an identifier that was read, and identifiers
    that are pairwise different give games with pairwise different ids. *)
Theorem recentGames_ids (games : list Game) (ids : list string) :
  map id (recentGames games ids)
    = filter (fun i => match findById games i with Some _ => true | None => false end) ids
  /\ length (recentGames games ids) <= length ids
  /\ (forall g, g ∈ recentGames games ids <->
                exists i, i ∈ ids /\ findById games i = Some g)
  /\ (forall g, g ∈ recentGames games ids -> g ∈ games /\ id g ∈ ids)
  /\ (NoDup ids -> NoDup (map id (recentGames games ids))).
Proof.
  split; [apply recentGames_keys|].
  split.
  { rewrite <- (length_map id), recentGames_keys.
    apply sublist_length, filter_sublist. }
  split; [apply elem_of_recentGames|].
  split.
  - intros g (i & Hi & Hfind)%elem_of_recentGames.
    apply findById_Some in Hfind as [<- Hin]. auto.
  - intros Hnd. rewrite recentGames_keys. by apply filter_NoDup.
Qed.

(** X8. The home view and the detail page look a game up the same way: an
    identifier resolves to a game on the home view exactly when the detail
    loader returns that game for it, it is dropped exactly when the loader
    throws the 404 response, and every game listed as recently played is
    the one its own detail page loads. *)
Theorem detail_page_agrees_with_resolution (games : list Game) :
  (forall i g, findById games i = Some g <->
     GameRoute.loader games {| GameRoute.gameId := Some i |} = Returned g)
  /\ (forall i, findById games i = None <->
        GameRoute.loader games {| GameRoute.gameId := Some i |}
        = Thrown {| GameRoute.body := "Game not found"; GameRoute.status := 404 |})
  /\ (forall ids g, g ∈ recentGames games ids ->
        GameRoute.loader games {| GameRoute.gameId := Some (id g) |} = Returned g).
Proof.
  split; [|split].
  - intros i g. rewrite loader_findById.
    destruct (findById games i); split; congruence.
  - intros i. rewrite loader_findById.
    destruct (findById games i); split; congruence.
  - intros ids g (i & _ & Hfind)%elem_of_recentGames.
    by rewrite loader_findById, (findById_own_id games i g Hfind).
Qed.

Lemma findById_app (games more : list Game) (i : string) :
  findById (games ++ more) i
  = match findById games i with Some g => Some g | None => findById more i end.
Proof. apply find_app. Qed.

Lemma recentGames_grow (games more : list Game) (ids : list string) :
  recentGames games ids `sublist_of` recentGames (games ++ more) ids.
Proof.
  induction ids as [|i ids IH]; [constructor|].
  rewrite !recentGames_cons, findById_app.
  destruct (findById games i) as [g|]; [by constructor|].
  destruct (findById more i); [by constructor|assumption].
Qed.

(** X9. Appending games to the catalog disturbs nothing that resolved
    before: an identifier keeps the game it resolved to, on the home view
    and in the detail loader; an identifier that resolved to nothing is
    looked up in the appended games; the recently-played games of the old
    catalog remain, in order, among those of the new one, and are all of
    them when every identifier already resolved; and the featured games of
    the old catalog lead those of the new one. *)
Theorem catalog_growth (games more : list Game) :
  (forall i g, findById games i = Some g -> findById (games ++ more) i = Some g)
  /\ (forall i, findById games i = None ->
        findById (games ++ more) i = findById more i)
  /\ (forall params g, GameRoute.loader games params = Returned g ->
        GameRoute.loader (games ++ more) params = Returned g)
  /\ (forall ids, recentGames games ids `sublist_of` recentGames (games ++ more) ids)
  /\ (forall ids, (forall i, i ∈ ids -> findById games i <> None) ->
        recentGames (games ++ more) ids = recentGames games ids)
  /\ loader games `prefix_of` loader (games ++ more).
Proof.
  split; [|split; [|split; [|split; [|split]]]].
  - intros i g Hfind. by rewrite findById_app, Hfind.
  - intros i Hfind. by rewrite findById_app, Hfind.
  - intros params g. unfold GameRoute.loader. rewrite find_app.
    by destruct (find _ games).
  - apply recentGames_grow.
  - intros ids Hall. induction ids as [|i ids IH]; [reflexivity|].
    rewrite !recentGames_cons, findById_app.
    assert (Hi : findById games i <> None) by apply Hall, list_elem_of_here.
    rewrite IH by (intros j Hj; by apply Hall, list_elem_of_further).
    destruct (findById games i); [reflexivity|congruence].
  - rewrite !loader_take, filter_app, take_app.
    by apply prefix_app_r.
Qed.

(** X10. The home loader returns three featured games when the catalog has
    at least three and all of them when it has fewer; it returns none
    exactly when no game is featured; once three are featured, games
    appended to the catalog no longer change it; and with ids unique in the
    catalog the games it returns have pairwise different ids. *)
Theorem home_loader_count (games : list Game) :
  length (loader games) = min 3 (length (filter featured games))
  /\ (loader games = [] <-> forall g, g ∈ games -> featured g = false)
  /\ (forall more, 3 <= length (filter featured games) ->
        loader (games ++ more) = loader games)
  /\ (NoDup (map id games) -> NoDup (map id (loader games))).
Proof.
  rewrite loader_take. split; [apply length_take|]. split; [|split].
  - rewrite <- filter_nil_iff.
    destruct (filter featured games); simpl; split; congruence.
  - intros more Hthree. rewrite loader_take, filter_app, take_app.
    replace (3 - length (filter featured games)) with 0 by lia.
    by rewrite take_0, app_nil_r.
  - intros Hnd. eapply sublist_NoDup; [exact Hnd|].
    apply fmap_sublist. etransitivity; [apply sublist_take|apply filter_sublist].
Qed.

(** X11. [Index] renders the recently-played section exactly when at
    least one identifier read resolves in the catalog; the cards then carry
    as keys the resolving identifiers in the order read, a non-empty list,
    without repeated keys when no identifier was read twice. *)
Theorem Index_render_recent (games featuredGames : list Game) (ids : list string) :
  (HomeView.recently_played_section
     (HomeView.Index_render (recentGames games ids) featuredGames) = None
   <-> forall i, i ∈ ids -> findById games i = None)
  /\ (forall keys,
        HomeView.recently_played_section
          (HomeView.Index_render (recentGames games ids) featuredGames) = Some keys ->
        keys = filter (fun i => match findById games i with
                                | Some _ => true
                                | None => false
                                end) ids
        /\ keys <> []
        /\ (NoDup ids -> NoDup keys)).
Proof.
  unfold HomeView.Index_render. cbn [HomeView.recently_played_section].
  split.
  - destruct (recentGames games ids) as [|g shown] eqn:Hshown; simpl.
    + split; [|reflexivity]. intros _ i Hi.
      destruct (findById games i) as [h|] eqn:Hfind; [|reflexivity].
      assert (Hin : h ∈ recentGames games ids) by (apply elem_of_recentGames; eauto).
      rewrite Hshown in Hin. inversion Hin.
    + split; [discriminate|]. intros Hnone.
      assert (Hin : g ∈ recentGames games ids) by (rewrite Hshown; apply list_elem_of_here).
      apply elem_of_recentGames in Hin as (i & Hi & Hfind).
      rewrite (Hnone i Hi) in Hfind. discriminate.
  - intros keys Hsome.
    destruct (Nat.ltb 0 (length (recentGames games ids))) eqn:Hlen; [|discriminate].
    injection Hsome as <-. apply Nat.ltb_lt in Hlen.
    split; [apply recentGames_keys|]. split.
    + intros Hnil. apply (f_equal length) in Hnil.
      rewrite length_map in Hnil. simpl in Hnil. lia.
    + intros Hnd. rewrite recentGames_keys. by apply filter_NoDup.
Qed.

End CatalogFacts.

(** ** The detail page and the home view on the sample data *)

Module PageExamples.
Import GameMeta.

Example meta_sample_title :
  titles (meta (Some Sample.pong) {| pathname := "/games/pong" |})
  = ["Pong - Play Online | Casual Games"].
Proof. reflexivity. Qed.

Example meta_sample_empty_override :
  titles (meta (Some MoreSamples.duel) {| pathname := "/games/duel" |})
  = ["Space Duel - Play Online | Casual Games"]
  /\ properties "og:title" (meta (Some MoreSamples.duel) {| pathname := "/games/duel" |})
     = ["Space Duel"]
  /\ named "description" (meta (Some MoreSamples.duel) {| pathname := "/games/duel" |})
     = ["Two ships, one screen."].
Proof. repeat split. Qed.

Example meta_sample_keywords :
  named "keywords" (meta (Some MoreSamples.duel) {| pathname := "/games/duel" |})
  = ["Arcade, Multiplayer, Retro"].
Proof. reflexivity. Qed.

Example meta_sample_not_found :
  meta None {| pathname := "/games/retired" |}
  = [TitleTag "Game Not Found - Casual Games";
     NameTag "description" "The requested game could not be found."].
Proof. reflexivity. Qed.

Example breadcrumb_sample_mismatch :
  links "canonical" (meta (Some MoreSamples.duel) {| pathname := "/games/duel" |})
  = ["https://casualgames.studio/games/duel"]
  /\ map GamePage.item (GamePage.breadcrumbData (fun s => s) MoreSamples.duel)
     = ["https://casualgames.studio";
        "https://casualgames.studio/categories/Arcade";
        "https://casualgames.studio/games/space-duel"]
  /\ GameRoute.loader MoreSamples.games {| GameRoute.gameId := Some "space-duel" |}
     = Thrown {| GameRoute.body := "Game not found"; GameRoute.status := 404 |}
  /\ GameRoute.loader MoreSamples.games {| GameRoute.gameId := Some "duel" |}
     = Returned MoreSamples.duel.
Proof. repeat split. Qed.

Example structuredData_sample :
  GamePage.ratingCount
    (GamePage.vg_aggregateRating (GamePage.structuredData (fun _ => "4") MoreSamples.duel))
  = 0%N
  /\ GamePage.ratingCount
       (GamePage.vg_aggregateRating (GamePage.structuredData (fun _ => "4.5") Sample.pong))
     = 120%N
  /\ GamePage.vg_numberOfPlayers (GamePage.structuredData (fun _ => "4") MoreSamples.duel)
     = "MultiPlayer"
  /\ GamePage.vg_numberOfPlayers (GamePage.structuredData (fun _ => "4.5") Sample.pong)
     = "SinglePlayer".
Proof. repeat split. Qed.

Example Index_render_sample :
  HomeView.Index_render
    (HomeRoute.recentGames Sample.games ["pong"; "retired"; "snake"])
    (HomeRoute.loader Sample.games)
  = {| HomeView.recently_played_section := Some ["pong"; "snake"];
       HomeView.featured_section := ["tetris"; "pong"; "chess"] |}.
Proof. reflexivity. Qed.

Example Index_render_sample_nothing_resolves :
  HomeView.Index_render (HomeRoute.recentGames Sample.games ["retired"])
    (HomeRoute.loader Sample.games)
  = {| HomeView.recently_played_section := None;
       HomeView.featured_section := ["tetris"; "pong"; "chess"] |}.
Proof. reflexivity. Qed.

Example loader_sample_grown_catalog :
  HomeRoute.loader MoreSamples.games = HomeRoute.loader Sample.games.
Proof. reflexivity. Qed.

End PageExamples.
